(** * orso column encodings: run-length and dictionary columns

    A shallow embedding of [orso/compute/column_types.h] and the proofs of
    its specification.

    Conventions of the embedding.
    - [std::vector<T>] is a [list T]; [push_back x] is [l ++ [x]];
      [v[i]] is the list lookup [l !! i], an out-of-range read being
      undefined behaviour ([Undefined] below).
    - [uint32_t] and [size_t] are [N] with the wrap-around written out:
      [to_uint32] reduces modulo 2^32, [to_size_t] modulo 2^64 ([size_t] is
      the 64-bit type of the LP64 and LLP64 targets).  The size of a vector
      is a [size_t] by construction and is read as [N.of_nat (length l)].
    - [T] is any type with a total, decidable equality: [a == b] is
      [decide (a = b)].
    - A member function that mutates [*this] takes the column and returns the
      new column; the buffer [(data, size)] is a [list T] whose length is
      [size]. *)

From Stdlib Require Import String.
From stdpp Require Import base decidable option numbers list.

Local Open Scope N_scope.

(** ** Shared definitions *)

(** Physical types supported by the column store (a label only). *)
Inductive PhysicalType :=
  | BIT8 | BIT16 | BIT32 | BIT64 | FIXED_WIDTH_ARRAY | VARIABLE_WIDTH.

Definition to_uint32 (n : N) : N := n mod 2 ^ 32.
Definition to_size_t (n : N) : N := n mod 2 ^ 64.

(** The exceptions of [<stdexcept>] that the header throws. *)
Inductive exception :=
  | out_of_range (what : string).

(** What a call does: it returns, it throws, or it runs into undefined
    behaviour (an unchecked [operator[]] outside the vector). *)
Inductive outcome (A : Type) :=
  | Returned (a : A)
  | Thrown (e : exception)
  | Undefined.
Arguments Returned {A} a.
Arguments Thrown {A} e.
Arguments Undefined {A}.

Definition obind {A B} (m : outcome A) (k : A → outcome B) : outcome B :=
  match m with
  | Returned a => k a
  | Thrown e => Thrown e
  | Undefined => Undefined
  end.

Notation "x ←' m ; k" := (obind m (λ x, k))
  (at level 20, m at level 100, k at level 200, right associativity,
   only parsing).

(** [v[i]] without a bounds check. *)
Definition at_unchecked {A} (v : list A) (i : nat) : outcome A :=
  match v !! i with
  | Some a => Returned a
  | None => Undefined
  end.

(** [for (j = 0; j < n; ++j) result.push_back(x)] *)
Fixpoint push_back_n {A} (result : list A) (x : A) (n : nat) : list A :=
  match n with
  | O => result
  | S n' => push_back_n (result ++ [x]) x n'
  end.

(** ** RLE (Run-Length Encoding) column *)
Module RLE.
Section codec.
Context {T : Type} `{!EqDecision T}.

Record RLEColumn := mk {
  values_ : list T;       (* Unique values in the run *)
  lengths_ : list N       (* Length of each run, uint32_t *)
}.

(** [RLEColumn() = default] *)
Definition new : RLEColumn := mk [] [].

(** The two [push_back]s that close a run. *)
Definition push_run (self : RLEColumn) (v : T) (len : N) : RLEColumn :=
  mk (values_ self ++ [v]) (lengths_ self ++ [len]).

(** The state of the scan: the members and the two locals. *)
Record scan := Scan {
  self_ : RLEColumn;
  current_value : T;
  current_length : N
}.

(** One iteration of the loop of [encode], at [d = data[i]]. *)
Definition encode_step (s : scan) (d : T) : scan :=
  if decide (d = current_value s) then
    Scan (self_ s) (current_value s) (to_uint32 (current_length s + 1))
  else
    Scan (push_run (self_ s) (current_value s) (current_length s)) d 1.

Definition encode (data : list T) (self : RLEColumn) : RLEColumn :=
  match data with
  | [] => self                                    (* size == 0: return *)
  | d0 :: rest =>
      let s := foldl encode_step (Scan new d0 1) rest in
      push_run (self_ s) (current_value s) (current_length s)
  end.

Definition decoded_size (self : RLEColumn) : N :=
  foldl (λ total len, to_size_t (total + len)) 0 (lengths_ self).

(** The body of the outer loop of [decode], at index [i]; [reserve] only
    allocates and is left out. *)
Definition decode_step (self : RLEColumn) (r : outcome (list T)) (i : nat)
  : outcome (list T) :=
  result ←' r;
  len ←' at_unchecked (lengths_ self) i;
  v ←' at_unchecked (values_ self) i;
  Returned (push_back_n result v (N.to_nat len)).

Definition decode (self : RLEColumn) : outcome (list T) :=
  foldl (decode_step self) (Returned []) (seq 0 (length (values_ self))).

End codec.
Arguments RLEColumn T : clear implicits.
Arguments scan T : clear implicits.
End RLE.

(** ** Dictionary encoding column *)
Module Dict.
Section codec.
Context {T : Type} `{!EqDecision T}.

Record DictionaryColumn := mk {
  dictionary_ : list T;   (* Unique values *)
  indices_ : list N       (* Indices into dictionary, uint32_t *)
}.

(** [DictionaryColumn() = default] *)
Definition new : DictionaryColumn := mk [] [].

(** [std::find(v.begin(), v.end(), value)]: the iterator it returns, as its
    distance from [v.begin()]; [v.end()] is [length v]. *)
Fixpoint find (v : list T) (value : T) : nat :=
  match v with
  | [] => O
  | x :: v' => if decide (x = value) then O else S (find v' value)
  end.

(** The state of the scan: the member [indices_] and the local
    [unique_values]; [dictionary_] stays cleared until the scan is over. *)
Record scan := Scan {
  unique_values : list T;
  indices : list N
}.

(** One iteration of the loop of [encode], at [value = data[i]]. *)
Definition encode_step (s : scan) (value : T) : scan :=
  let it := find (unique_values s) value in
  if decide (it = length (unique_values s)) then
    (* New unique value *)
    let unique_values' := unique_values s ++ [value] in
    Scan unique_values'
         (indices s ++ [to_uint32 (N.of_nat (length unique_values') - 1)])
  else
    (* Existing value *)
    Scan (unique_values s) (indices s ++ [to_uint32 (N.of_nat it)]).

Definition encode (data : list T) (self : DictionaryColumn)
  : DictionaryColumn :=
  match data with
  | [] => self                                    (* size == 0: return *)
  | _ :: _ =>
      let s := foldl encode_step (Scan [] []) data in
      mk (unique_values s) (indices s)
  end.

(** The loop of [decode] over the remaining indices. *)
Fixpoint decode_loop (dictionary : list T) (idxs : list N) (result : list T)
  : outcome (list T) :=
  match idxs with
  | [] => Returned result
  | idx :: idxs' =>
      if decide (N.of_nat (length dictionary) ≤ idx) then
        Thrown (out_of_range "Dictionary index out of range")
      else
        v ←' at_unchecked dictionary (N.to_nat idx);
        decode_loop dictionary idxs' (result ++ [v])
  end.

Definition decode (self : DictionaryColumn) : outcome (list T) :=
  decode_loop (dictionary_ self) (indices_ self) [].

Definition size (self : DictionaryColumn) : N :=
  N.of_nat (length (indices_ self)).

End codec.
Arguments DictionaryColumn T : clear implicits.
Arguments scan T : clear implicits.
End Dict.

(** ** Vocabulary of the specification *)
Section vocabulary.
Context {T : Type}.

(** A run is a value and the number of times it is repeated; a list of runs
    stands for the sequence that repeats each value in turn. *)
Fixpoint expand (rs : list (T * nat)) : list T :=
  match rs with
  | [] => []
  | r :: rs' => replicate r.2 r.1 ++ expand rs'
  end.

(** No block of equal consecutive elements of [data] has 2^32 elements or
    more: every run length fits the [uint32_t] that counts it. *)
Definition runs_fit_uint32 (data : list T) : Prop :=
  ∀ l1 x n l2, data = l1 ++ replicate n x ++ l2 → N.of_nat n < 2 ^ 32.

(** No two neighbours of [l] are equal. *)
Definition adjacent_distinct (l : list T) : Prop :=
  ∀ i x y, l !! i = Some x → l !! S i = Some y → x ≠ y.

(** [data] has at most 2^32 distinct values: every duplicate-free list drawn
    from [data] has at most 2^32 elements, so every position of a value fits
    the [uint32_t] that stores it. *)
Definition distinct_fit_uint32 (data : list T) : Prop :=
  ∀ l, NoDup l → (∀ x, x ∈ l → x ∈ data) → N.of_nat (length l) ≤ 2 ^ 32.

End vocabulary.

Section rle_vocabulary.
Context {T : Type}.

(** The length that is stored for a run of [n] elements. *)
Definition stored_length (r : T * nat) : N := to_uint32 (N.of_nat r.2).

(** What holds of the scan after any number of iterations: the elements
    read so far are the closed runs followed by the open one. *)
Record scan_inv (read : list T) (s : RLE.scan T)
    (rs : list (T * nat)) (n : nat) : Prop := {
  inv_read : read = expand rs ++ replicate (S n) (RLE.current_value s);
  inv_values : RLE.values_ (RLE.self_ s) = rs.*1;
  inv_lengths : RLE.lengths_ (RLE.self_ s) = stored_length <$> rs;
  inv_current : RLE.current_length s = to_uint32 (N.of_nat (S n));
  inv_positive : Forall (λ r, (0 < r.2)%nat) rs;
  inv_adjacent : adjacent_distinct (rs.*1 ++ [RLE.current_value s])
}.

(** The runs that a column holds, member by member: the [i]-th value with
    the [i]-th length. *)
Definition column_runs (c : RLE.RLEColumn T) : list (T * nat) :=
  zip_with (λ v len, (v, N.to_nat len)) (RLE.values_ c) (RLE.lengths_ c).

End rle_vocabulary.

Section vocabulary_eq.
Context {T : Type} `{!EqDecision T}.

(** Following the spec's words: the distinct values of [data], in the order
    in which they first appear in [data]. *)
Fixpoint first_occurrences (data : list T) : list T :=
  match data with
  | [] => []
  | x :: data' => x :: filter (λ y, y ≠ x) (first_occurrences data')
  end.

(** The index that is stored for a value, from where [std::find] finds it. *)
Definition stored_index (dictionary : list T) (v : T) : N :=
  to_uint32 (N.of_nat (Dict.find dictionary v)).

(** The first entry of [indices_] that is no position of [dictionary_]. *)
Definition first_offending (c : Dict.DictionaryColumn T) : option N :=
  head (filter (λ idx, N.of_nat (length (Dict.dictionary_ c)) ≤ idx)
               (Dict.indices_ c)).

End vocabulary_eq.

(** ** Inputs beyond the range of the 32-bit counters *)

(** 2^32 copies of one value: a single run, one element longer than the
    largest [uint32_t]. *)
Definition long_run : list N := replicate (N.to_nat (2 ^ 32)) 0.

(** The numbers 0, 1, ..., n-1. *)
Definition iota (n : nat) : list N := N.of_nat <$> seq 0 n.

(** 2^32 + 1 distinct values, one more than there are [uint32_t] indices. *)
Definition many_distinct : list N := iota (N.to_nat (2 ^ 32 + 1)).

(** ** The scenarios of the specification *)

Example rle_scenario_1 :
  RLE.encode [5; 5; 5; 2; 2; 9] RLE.new = RLE.mk [5; 2; 9] [3; 2; 1]
  ∧ RLE.decode (RLE.mk [5; 2; 9] [3; 2; 1]) = Returned [5; 5; 5; 2; 2; 9].
Proof. split; reflexivity. Qed.

Example rle_scenario_2 :
  RLE.encode (@nil N) RLE.new = RLE.mk [] []
  ∧ RLE.decoded_size (RLE.encode (@nil N) RLE.new) = 0.
Proof. split; reflexivity. Qed.

Example rle_scenario_3 : RLE.encode [7] RLE.new = RLE.mk [7] [1].
Proof. reflexivity. Qed.

Example dict_scenario_4 :
  Dict.encode [3; 1; 3; 2; 1] Dict.new = Dict.mk [3; 1; 2] [0; 1; 0; 2; 1]
  ∧ Dict.decode (Dict.mk [3; 1; 2] [0; 1; 0; 2; 1]) = Returned [3; 1; 3; 2; 1].
Proof. split; reflexivity. Qed.

Example dict_scenario_5 :
  Dict.encode (@nil N) Dict.new = Dict.mk [] []
  ∧ Dict.size (Dict.encode (@nil N) Dict.new) = 0.
Proof. split; reflexivity. Qed.

(** A column that is encoded a second time, with no data. *)
Example rle_reencode_empty :
  RLE.encode [] (RLE.encode [5; 5; 2] RLE.new) = RLE.mk [5; 2] [2; 1].
Proof. reflexivity. Qed.

Example dict_scenario_6 :
  Dict.decode (Dict.mk [10; 20] [0; 5])
  = Thrown (out_of_range "Dictionary index out of range").
Proof. reflexivity. Qed.

(** ** Arithmetic of the fixed-width counters *)

Lemma to_uint32_small n : n < 2 ^ 32 → to_uint32 n = n.
Proof. apply N.mod_small. Qed.

Lemma to_uint32_succ n : to_uint32 (to_uint32 n + 1) = to_uint32 (n + 1).
Proof. unfold to_uint32. by rewrite N.Div0.add_mod_idemp_l. Qed.

Lemma to_uint32_le n : to_uint32 n ≤ n.
Proof. unfold to_uint32. apply N.Div0.mod_le. Qed.

Lemma to_size_t_add n m : to_size_t (to_size_t n + m) = to_size_t (n + m).
Proof. unfold to_size_t. by rewrite N.Div0.add_mod_idemp_l. Qed.

(** ** Shared helpers *)

Lemma push_back_n_replicate {A} (result : list A) x n :
  push_back_n result x n = result ++ replicate n x.
Proof.
  revert result. induction n as [|n IH]; intros result; simpl.
  - by rewrite app_nil_r.
  - by rewrite IH, <- app_assoc.
Qed.

Lemma expand_app {T} (rs1 rs2 : list (T * nat)) :
  expand (rs1 ++ rs2) = expand rs1 ++ expand rs2.
Proof.
  induction rs1 as [|r rs1 IH]; simpl; [done|]. by rewrite IH, app_assoc.
Qed.

Lemma expand_snoc {T} (rs : list (T * nat)) v n :
  expand (rs ++ [(v, n)]) = expand rs ++ replicate n v.
Proof. rewrite expand_app. simpl. by rewrite app_nil_r. Qed.

Lemma adjacent_distinct_singleton {T} (x : T) : adjacent_distinct [x].
Proof. intros i a b _ Hb. by destruct i. Qed.

Lemma adjacent_distinct_snoc {T} (l : list T) a b :
  adjacent_distinct (l ++ [a]) → a ≠ b → adjacent_distinct ((l ++ [a]) ++ [b]).
Proof.
  intros Hl Hab i x y Hx Hy.
  destruct (decide (S i < length (l ++ [a]))%nat) as [Hlt|Hge].
  - rewrite lookup_app_l in Hx by lia. rewrite lookup_app_l in Hy by lia.
    by eapply Hl.
  - apply lookup_lt_Some in Hy as Hlen. rewrite !length_app in *. simpl in *.
    assert (i = length l) as -> by lia.
    rewrite lookup_app_l in Hx by (rewrite length_app; simpl; lia).
    rewrite list_lookup_middle in Hx by done.
    rewrite lookup_app_r in Hy by (rewrite length_app; simpl; lia).
    rewrite length_app in Hy. simpl in Hy.
    replace (S (length l) - (length l + 1))%nat with 0%nat in Hy by lia.
    simpl in Hy. congruence.
Qed.

(** ** RLE: the runs that the scan finds *)
Section rle_proofs.
Context {T : Type} `{!EqDecision T}.
Implicit Types (data rest : list T) (rs : list (T * nat)) (c : RLE.RLEColumn T).

Lemma scan_inv_init (d0 : T) : scan_inv [d0] (RLE.Scan RLE.new d0 1) [] 0.
Proof.
  split; simpl; try done.
Qed.

Lemma scan_inv_step read s rs n d :
  scan_inv read s rs n →
  ∃ rs' n', scan_inv (read ++ [d]) (RLE.encode_step s d) rs' n'.
Proof.
  intros [Hread Hvals Hlens Hcur Hpos Hadj]. unfold RLE.encode_step.
  destruct (decide (d = RLE.current_value s)) as [->|Hne].
  - exists rs, (S n). split; simpl; try done.
    + by rewrite Hread, <- app_assoc, <- replicate_S_end.
    + rewrite Hcur, to_uint32_succ. f_equal. lia.
  - exists (rs ++ [(RLE.current_value s, S n)]), 0%nat.
    split; simpl; try done.
    + by rewrite expand_snoc, Hread.
    + by rewrite Hvals, fmap_app.
    + by rewrite Hlens, Hcur, fmap_app.
    + apply Forall_app. split; [done|]. apply Forall_singleton. simpl. lia.
    + rewrite fmap_app. simpl. apply adjacent_distinct_snoc; [done|congruence].
Qed.

Lemma scan_inv_foldl (d0 : T) rest :
  ∃ rs n, scan_inv (d0 :: rest)
            (foldl RLE.encode_step (RLE.Scan RLE.new d0 1) rest) rs n.
Proof.
  induction rest as [|d rest IH] using rev_ind.
  - exists [], 0%nat. apply scan_inv_init.
  - destruct IH as (rs & n & IH). rewrite foldl_snoc.
    apply (scan_inv_step _ _ _ _ d) in IH. by rewrite app_comm_cons.
Qed.

(** The column that [encode] builds in a new object lists the runs of a
    decomposition of [data] into non-empty runs, neighbours differing in value,
    with every length reduced modulo 2^32. *)
Lemma encode_runs data :
  ∃ rs, data = expand rs
        ∧ RLE.encode data RLE.new = RLE.mk rs.*1 (stored_length <$> rs)
        ∧ Forall (λ r, (0 < r.2)%nat) rs
        ∧ adjacent_distinct rs.*1.
Proof.
  destruct data as [|d0 rest].
  - exists []. repeat split; done.
  - destruct (scan_inv_foldl d0 rest) as (rs & n & [Hread Hvals Hlens Hcur Hpos Hadj]).
    exists (rs ++ [(RLE.current_value
                      (foldl RLE.encode_step (RLE.Scan RLE.new d0 1) rest),
                    S n)]).
    repeat split.
    + by rewrite expand_snoc.
    + unfold RLE.encode, RLE.push_run. rewrite Hvals, Hlens, Hcur, !fmap_app.
      done.
    + apply Forall_app. split; [done|]. apply Forall_singleton. simpl. lia.
    + by rewrite fmap_app.
Qed.

(** Whatever the column held, a non-empty buffer is encoded as in a new
    object: [encode] clears the members first. *)
Lemma encode_nonempty_clears data c :
  data ≠ [] → RLE.encode data c = RLE.encode data RLE.new.
Proof. by destruct data. Qed.

Lemma runs_fit_expand rs :
  runs_fit_uint32 (expand rs) → Forall (λ r, N.of_nat r.2 < 2 ^ 32) rs.
Proof.
  intros Hfit. apply Forall_forall. intros r Hr.
  apply list_elem_of_split in Hr as (rs1 & rs2 & ->).
  apply (Hfit (expand rs1) r.1 r.2 (expand rs2)).
  by rewrite expand_app.
Qed.

Lemma stored_length_fit rs :
  Forall (λ r, N.of_nat r.2 < 2 ^ 32) rs →
  stored_length <$> rs = (λ r, N.of_nat r.2) <$> rs.
Proof.
  intros Hfit. apply Forall_fmap_ext. eapply Forall_impl; [done|].
  intros r Hr. by apply to_uint32_small.
Qed.

End rle_proofs.

(** ** RLE: decoding and the size of the decoded sequence *)
Section rle_decode.
Context {T : Type} `{!EqDecision T}.
Implicit Types (data : list T) (rs : list (T * nat)) (c : RLE.RLEColumn T).

(** The outer loop of [decode], stopped after [k] runs. *)
Lemma decode_prefix rs (g : T * nat → N) (k : nat) :
  (k ≤ length rs)%nat →
  foldl (RLE.decode_step (RLE.mk rs.*1 (g <$> rs))) (Returned []) (seq 0 k)
  = Returned (expand ((λ r, (r.1, N.to_nat (g r))) <$> take k rs)).
Proof.
  induction k as [|k IH]; intros Hk; [done|].
  rewrite seq_S, foldl_snoc, IH by lia. simpl.
  destruct (lookup_lt_is_Some_2 rs k) as [r Hr]; [lia|].
  unfold RLE.decode_step, at_unchecked. simpl.
  rewrite !list_lookup_fmap, Hr. simpl.
  rewrite push_back_n_replicate, (take_S_r _ _ r), fmap_app, expand_app by done.
  simpl. by rewrite app_nil_r.
Qed.

Lemma decode_runs rs (g : T * nat → N) :
  RLE.decode (RLE.mk rs.*1 (g <$> rs))
  = Returned (expand ((λ r, (r.1, N.to_nat (g r))) <$> rs)).
Proof.
  unfold RLE.decode. simpl. rewrite length_fmap, decode_prefix by done.
  by rewrite take_ge.
Qed.

(** The accumulation of [decoded_size], started from any total. *)
Lemma decoded_size_from rs (total : N) :
  foldl (λ total len, to_size_t (total + len)) (to_size_t total)
        ((λ r, N.of_nat r.2) <$> rs)
  = to_size_t (total + N.of_nat (length (expand rs))).
Proof.
  revert total. induction rs as [|r rs IH]; intros total; simpl.
  - by rewrite N.add_0_r.
  - rewrite to_size_t_add, IH, length_app, length_replicate. f_equal. lia.
Qed.

End rle_decode.

(** ** RLE: a buffer that holds one value only *)
Section rle_single_run.
Context {T : Type} `{!EqDecision T}.

Lemma encode_step_replicate (c : RLE.RLEColumn T) x (n : nat) (m : N) :
  foldl RLE.encode_step (RLE.Scan c x (to_uint32 m)) (replicate n x)
  = RLE.Scan c x (to_uint32 (m + N.of_nat n)).
Proof.
  revert m. induction n as [|n IH]; intros m; simpl.
  - by rewrite N.add_0_r.
  - unfold RLE.encode_step at 2. simpl. rewrite decide_True by done.
    rewrite to_uint32_succ, IH. do 2 f_equal. lia.
Qed.

Lemma encode_replicate (x : T) (n : nat) :
  RLE.encode (replicate (S n) x) RLE.new
  = RLE.mk [x] [to_uint32 (N.of_nat (S n))].
Proof.
  unfold RLE.encode. cbn [replicate].
  change (RLE.Scan RLE.new x 1) with (RLE.Scan RLE.new x (to_uint32 1)).
  rewrite encode_step_replicate. unfold RLE.push_run. simpl.
  do 3 f_equal. lia.
Qed.

End rle_single_run.

Lemma long_run_length : N.of_nat (length long_run) = 2 ^ 32.
Proof. unfold long_run. by rewrite length_replicate, N2Nat.id. Qed.

Lemma encode_long_run : RLE.encode long_run RLE.new = RLE.mk [0] [0].
Proof.
  unfold long_run. change (2 ^ 32) with (N.succ 4294967295).
  rewrite N2Nat.inj_succ, encode_replicate, <- N2Nat.inj_succ, N2Nat.id.
  reflexivity.
Qed.

Lemma runs_fit_uint32_short {T} (data : list T) :
  N.of_nat (length data) < 2 ^ 32 → runs_fit_uint32 data.
Proof.
  intros Hlen l1 x n l2 ->. rewrite !length_app, length_replicate in Hlen. lia.
Qed.

(** ** RLE: the properties of the specification *)
Section rle_claims.
Context {T : Type} `{!EqDecision T}.
Implicit Types (data : list T) (c : RLE.RLEColumn T).

(** C1, as amended.  RLE round trip: for every sequence in which no block of
    equal consecutive elements reaches 2^32 elements (the empty sequence
    included), [decode] of the column that [encode] builds in a new object
    returns exactly that sequence. *)
Theorem rle_round_trip data :
  runs_fit_uint32 data →
  RLE.decode (RLE.encode data RLE.new) = Returned data.
Proof.
  intros Hfit.
  destruct (encode_runs data) as (rs & -> & -> & _ & _).
  apply runs_fit_expand in Hfit.
  rewrite decode_runs. do 2 f_equal.
  rewrite <- (list_fmap_id rs) at 2. apply Forall_fmap_ext.
  eapply Forall_impl; [done|]. intros [v n] Hn. unfold stored_length. simpl in *.
  rewrite to_uint32_small by done. by rewrite Nat2N.id.
Qed.

(** C6.  RLE maximality: after [encode] of a non-empty sequence, whatever the
    column held before, no two adjacent entries of [values_] are equal. *)
Theorem rle_maximality data c :
  data ≠ [] → adjacent_distinct (RLE.values_ (RLE.encode data c)).
Proof.
  intros Hne. rewrite encode_nonempty_clears by done.
  by destruct (encode_runs data) as (rs & _ & -> & _ & ?).
Qed.

(** C7, as amended.  RLE length conservation: for every sequence whose size
    is a [size_t] and in which no block of equal consecutive elements
    reaches 2^32 elements, [decoded_size] after [encode] into a new object is
    the length of the sequence. *)
Theorem rle_length_conservation data :
  runs_fit_uint32 data →
  N.of_nat (length data) < 2 ^ 64 →
  RLE.decoded_size (RLE.encode data RLE.new) = N.of_nat (length data).
Proof.
  intros Hfit Hsize.
  destruct (encode_runs data) as (rs & -> & -> & _ & _).
  apply runs_fit_expand, stored_length_fit in Hfit.
  unfold RLE.decoded_size. simpl. rewrite Hfit.
  change 0 with (to_size_t 0) at 1. rewrite decoded_size_from, N.add_0_l.
  by apply N.mod_small.
Qed.

(** C9, as amended.  Run-length positivity: for every sequence in which no
    block of equal consecutive elements reaches 2^32 elements, every entry
    of [lengths_] after [encode] into a new object is at least 1. *)
Theorem rle_lengths_positive data :
  runs_fit_uint32 data →
  Forall (λ len, 1 ≤ len) (RLE.lengths_ (RLE.encode data RLE.new)).
Proof.
  intros Hfit.
  destruct (encode_runs data) as (rs & -> & -> & Hpos & _).
  apply runs_fit_expand in Hfit. simpl.
  rewrite stored_length_fit by done. apply Forall_fmap.
  eapply Forall_impl; [exact Hpos|]. intros r Hr. simpl in *. lia.
Qed.

End rle_claims.

(** C1 fails as stated.  A run of 2^32 equal values wraps the 32-bit
    counter round to 0: the column stores one run of length 0 and decodes to
    the empty sequence. *)
Lemma rle_round_trip_long_run :
  RLE.decode (RLE.encode long_run RLE.new) = Returned []
  ∧ RLE.decode (RLE.encode long_run RLE.new) ≠ Returned long_run.
Proof.
  rewrite encode_long_run. split; [reflexivity|].
  change (RLE.decode (RLE.mk [0] [0])) with (Returned (@nil N)).
  intros H. assert (@nil N = long_run) as H' by congruence.
  pose proof long_run_length as Hlen.
  rewrite <- H' in Hlen. discriminate Hlen.
Qed.

(** C7 fails as stated: on the run of 2^32 equal values [decoded_size] is 0. *)
Lemma rle_length_conservation_long_run :
  RLE.decoded_size (RLE.encode long_run RLE.new) = 0
  ∧ RLE.decoded_size (RLE.encode long_run RLE.new)
    ≠ N.of_nat (length long_run).
Proof.
  rewrite encode_long_run, long_run_length. split; [reflexivity|].
  change (RLE.decoded_size (RLE.mk [0] [0])) with 0. discriminate.
Qed.

(** C9 fails as stated: on the run of 2^32 equal values the stored length
    is 0. *)
Lemma rle_lengths_positive_long_run :
  RLE.lengths_ (RLE.encode long_run RLE.new) = [0]
  ∧ ¬ Forall (λ len, 1 ≤ len) (RLE.lengths_ (RLE.encode long_run RLE.new)).
Proof.
  rewrite encode_long_run. split; [reflexivity|].
  simpl. intros H. apply Forall_cons_1 in H as [H _]. lia.
Qed.

Lemma rle_round_trip_witness :
  runs_fit_uint32 [5; 5; 5; 2; 2; 9]
  ∧ RLE.decode (RLE.encode [5; 5; 5; 2; 2; 9] RLE.new)
    = Returned [5; 5; 5; 2; 2; 9].
Proof.
  assert (runs_fit_uint32 [5; 5; 5; 2; 2; 9]) as Hfit
    by (apply runs_fit_uint32_short; simpl; lia).
  split; [exact Hfit | apply (rle_round_trip _ Hfit)].
Defined.

Lemma rle_maximality_witness :
  [5; 5; 5; 2; 2; 9] ≠ []
  ∧ adjacent_distinct (RLE.values_ (RLE.encode [5; 5; 5; 2; 2; 9] RLE.new)).
Proof. split; [discriminate | apply rle_maximality; discriminate]. Defined.

Lemma rle_length_conservation_witness :
  runs_fit_uint32 [5; 5; 5; 2; 2; 9]
  ∧ RLE.decoded_size (RLE.encode [5; 5; 5; 2; 2; 9] RLE.new) = 6.
Proof.
  assert (runs_fit_uint32 [5; 5; 5; 2; 2; 9]) as Hfit
    by (apply runs_fit_uint32_short; simpl; lia).
  split; [exact Hfit | apply (rle_length_conservation _ Hfit); simpl; lia].
Defined.

Lemma rle_lengths_positive_witness :
  runs_fit_uint32 [7]
  ∧ Forall (λ len, 1 ≤ len) (RLE.lengths_ (RLE.encode [7] RLE.new)).
Proof.
  assert (runs_fit_uint32 [7]) as Hfit
    by (apply runs_fit_uint32_short; simpl; lia).
  split; [exact Hfit | apply (rle_lengths_positive _ Hfit)].
Defined.

(** ** Dictionary: [std::find] over the distinct values *)
Section dict_find.
Context {T : Type} `{!EqDecision T}.
Implicit Types (u w data : list T) (v x : T).

Lemma find_le u v : (Dict.find u v ≤ length u)%nat.
Proof. induction u as [|x u IH]; simpl; [lia|]. case_decide; lia. Qed.

(** [std::find] returns [end()] exactly when the value is absent. *)
Lemma find_end u v : Dict.find u v = length u ↔ v ∉ u.
Proof.
  induction u as [|x u IH]; simpl.
  - split; [intros _; apply not_elem_of_nil | done].
  - rewrite not_elem_of_cons. case_decide as Hx.
    + split; [lia | intros [? _]; congruence].
    + split.
      * intros [= Hfind]. split; [congruence | by apply IH].
      * intros [_ Hu]. f_equal. by apply IH.
Qed.

Lemma find_lt u v : v ∈ u → (Dict.find u v < length u)%nat.
Proof.
  intros Hin. pose proof (find_le u v).
  destruct (decide (Dict.find u v = length u)) as [Hend|]; [|lia].
  by apply find_end in Hend.
Qed.

(** Otherwise the iterator points at the value. *)
Lemma find_lookup u v : v ∈ u → u !! Dict.find u v = Some v.
Proof.
  induction u as [|x u IH]; simpl.
  - by intros ?%elem_of_nil.
  - intros Hin. case_decide as Hx; simpl; [by subst|].
    apply elem_of_cons in Hin as [->|Hin]; [done | by apply IH].
Qed.

(** Appending to the vector does not move an iterator that was found. *)
Lemma find_app_l u w v : v ∈ u → Dict.find (u ++ w) v = Dict.find u v.
Proof.
  induction u as [|x u IH]; simpl.
  - by intros ?%elem_of_nil.
  - intros Hin. case_decide as Hx; [done|].
    apply elem_of_cons in Hin as [->|Hin]; [done | by rewrite IH].
Qed.

Lemma find_snoc_new u v : v ∉ u → Dict.find (u ++ [v]) v = length u.
Proof.
  induction u as [|x u IH]; simpl.
  - intros _. by rewrite decide_True.
  - rewrite not_elem_of_cons. intros [Hx Hu]. rewrite decide_False by done.
    by rewrite IH.
Qed.

(** In a duplicate-free vector the position of an element is its index. *)
Lemma find_NoDup u i v : NoDup u → u !! i = Some v → Dict.find u v = i.
Proof.
  intros Hnd Hi. eapply NoDup_lookup; [done| |done].
  apply find_lookup. by eapply list_elem_of_lookup_2.
Qed.

End dict_find.

(** ** The distinct values of a sequence in order of first appearance *)
Section first_occurrences.
Context {T : Type} `{!EqDecision T}.
Implicit Types (l data : list T) (x y v : T).

Lemma filter_all (P : T → Prop) `{!∀ x, Decision (P x)} l :
  (∀ x, x ∈ l → P x) → filter P l = l.
Proof.
  induction l as [|a l IH]; intros Hall; [done|].
  rewrite filter_cons_True by (apply Hall; left).
  f_equal. apply IH. intros x Hx. apply Hall. by right.
Qed.

(** [filter] keeps the relative order of the elements it keeps. *)
Lemma filter_lookup_order (P : T → Prop) `{!∀ x, Decision (P x)} l i j x y :
  filter P l !! i = Some x → filter P l !! j = Some y → (i < j)%nat →
  ∃ i' j', (i' < j')%nat ∧ l !! i' = Some x ∧ l !! j' = Some y.
Proof.
  revert i j. induction l as [|a l IH]; intros i j Hi Hj Hij; [done|].
  rewrite filter_cons in Hi, Hj. destruct (decide (P a)) as [Ha|Ha].
  - destruct i as [|i]; destruct j as [|j]; try lia; simpl in *.
    + apply list_elem_of_lookup_2, list_elem_of_filter in Hj as [_ Hy].
      apply list_elem_of_lookup_1 in Hy as [j' Hj'].
      exists 0%nat, (S j'). repeat split; [lia|done..].
    + destruct (IH i j) as (i' & j' & ? & ? & ?); [done|done|lia|].
      exists (S i'), (S j'). repeat split; [lia|done..].
  - destruct (IH i j) as (i' & j' & ? & ? & ?); [done..|].
    exists (S i'), (S j'). repeat split; [lia|done..].
Qed.

Lemma elem_of_first_occurrences data x :
  x ∈ first_occurrences data ↔ x ∈ data.
Proof.
  induction data as [|a data IH]; simpl; [done|].
  rewrite !elem_of_cons, list_elem_of_filter, IH.
  destruct (decide (x = a)); tauto.
Qed.

Lemma NoDup_first_occurrences data : NoDup (first_occurrences data).
Proof.
  induction data as [|a data IH]; simpl; [constructor|].
  apply NoDup_cons. split.
  - rewrite list_elem_of_filter. intros [Ha _]. by apply Ha.
  - by apply NoDup_filter.
Qed.

Lemma first_occurrences_NoDup data :
  NoDup data → first_occurrences data = data.
Proof.
  induction data as [|a data IH]; simpl; [done|].
  intros [Ha Hnd]%NoDup_cons. rewrite IH by done. f_equal.
  apply filter_all. intros x Hx ->. done.
Qed.

(** Reading one more value: it joins the end of the list when it is new. *)
Lemma first_occurrences_snoc data v :
  first_occurrences (data ++ [v])
  = if decide (v ∈ data) then first_occurrences data
    else first_occurrences data ++ [v].
Proof.
  induction data as [|a data IH].
  - done.
  - rewrite <- app_comm_cons. cbn [first_occurrences].
    rewrite IH. destruct (decide (v = a)) as [->|Hva].
    + rewrite (decide_True (P := a ∈ a :: data)) by left.
      case_decide; [done|]. rewrite filter_app, filter_cons_False by (intros Ha; by apply Ha).
      by rewrite filter_nil, app_nil_r.
    + destruct (decide (v ∈ data)) as [Hin|Hin].
      * rewrite decide_True by (by right). done.
      * rewrite decide_False by (rewrite elem_of_cons; tauto).
        rewrite filter_app, filter_cons_True by done. done.
Qed.

(** First-occurrence order: of two entries of the list, the earlier one
    occurs in [data] before the later one occurs at all. *)
Lemma first_occurrences_order data i j x y :
  first_occurrences data !! i = Some x →
  first_occurrences data !! j = Some y →
  (i < j)%nat →
  ∃ k, data !! k = Some x ∧ ∀ k', (k' ≤ k)%nat → data !! k' ≠ Some y.
Proof.
  revert i j. induction data as [|a data IH]; intros i j Hi Hj Hij; [done|].
  simpl in Hi, Hj. destruct j as [|j]; [lia|]. simpl in Hj.
  assert (y ≠ a) as Hya.
  { apply list_elem_of_lookup_2, list_elem_of_filter in Hj. by destruct Hj. }
  destruct i as [|i]; simpl in Hi.
  - exists 0%nat. split; [done|]. intros k' Hk'.
    assert (k' = 0)%nat as -> by lia. simpl. congruence.
  - destruct (filter_lookup_order _ _ _ _ _ _ Hi Hj) as (i' & j' & ? & Hi' & Hj');
      [lia|].
    destruct (IH i' j' Hi' Hj') as (k & Hk & Hbefore); [done|].
    exists (S k). split; [done|]. intros [|k'] Hk'; simpl; [congruence|].
    apply Hbefore. lia.
Qed.

End first_occurrences.

(** ** Dictionary: what the scan builds *)
Section dict_encode.
Context {T : Type} `{!EqDecision T}.
Implicit Types (data : list T) (v : T).

(** The scan keeps the distinct values read so far, in the order of their
    first appearance, and has stored for each value read its position among
    them, reduced modulo 2^32. *)
Lemma encode_scan data :
  foldl Dict.encode_step (Dict.Scan [] []) data
  = Dict.Scan (first_occurrences data)
              (stored_index (first_occurrences data) <$> data).
Proof.
  induction data as [|v data IH] using rev_ind; [done|].
  rewrite foldl_snoc, IH, first_occurrences_snoc, fmap_app.
  unfold Dict.encode_step. simpl.
  destruct (decide (Dict.find (first_occurrences data) v
                    = length (first_occurrences data))) as [Hend|Hfound].
  - apply find_end in Hend as Hnew.
    rewrite decide_False by (by rewrite <- elem_of_first_occurrences).
    f_equal. f_equal.
    + apply list_fmap_ext. intros i x Hx. unfold stored_index.
      rewrite find_app_l; [done|].
      apply elem_of_first_occurrences. by eapply list_elem_of_lookup_2.
    + unfold stored_index. rewrite find_snoc_new, length_app by done.
      simpl. do 2 f_equal. lia.
  - assert (v ∈ first_occurrences data) as Hin.
    { destruct (decide (v ∈ first_occurrences data)) as [|Hnot]; [done|].
      by apply find_end in Hnot. }
    rewrite decide_True by (by rewrite <- elem_of_first_occurrences).
    done.
Qed.

Lemma encode_new data :
  Dict.encode data Dict.new
  = Dict.mk (first_occurrences data)
            (stored_index (first_occurrences data) <$> data).
Proof.
  destruct data as [|v data]; [done|].
  unfold Dict.encode. by rewrite encode_scan.
Qed.

(** Whatever the column held, a non-empty buffer is encoded as in a new
    object: [encode] clears the members first. *)
Lemma dict_encode_nonempty_clears data (c : Dict.DictionaryColumn T) :
  data ≠ [] → Dict.encode data c = Dict.encode data Dict.new.
Proof. by destruct data. Qed.

Lemma distinct_fit_first_occurrences data :
  distinct_fit_uint32 data → N.of_nat (length (first_occurrences data)) ≤ 2 ^ 32.
Proof.
  intros Hfit. apply Hfit; [apply NoDup_first_occurrences|].
  intros x. by rewrite elem_of_first_occurrences.
Qed.

End dict_encode.

(** ** Dictionary: the loop of [decode] *)
Section dict_decode.
Context {T : Type} `{!EqDecision T}.
Implicit Types (dictionary result : list T) (idxs : list N).

(** When every stored index leads back to its value, the loop returns the
    values. *)
Lemma decode_loop_fmap dictionary (g : T → N) (l : list T) result :
  (∀ v, v ∈ l → dictionary !! N.to_nat (g v) = Some v) →
  Dict.decode_loop dictionary (g <$> l) result = Returned (result ++ l).
Proof.
  revert result. induction l as [|v l IH]; intros result Hl; simpl.
  - by rewrite app_nil_r.
  - pose proof (Hl v (list_elem_of_here _ _)) as Hv.
    apply lookup_lt_Some in Hv as Hlt.
    rewrite decide_False by lia. unfold at_unchecked. rewrite Hv. simpl.
    rewrite IH, <- app_assoc; [done|]. intros x Hx. apply Hl. by right.
Qed.

(** What the loop returns, when it returns: one value per index, read from
    the dictionary at that index. *)
Lemma decode_loop_returned dictionary idxs result r :
  Dict.decode_loop dictionary idxs result = Returned r →
  ∃ vs, r = result ++ vs
        ∧ Forall2 (λ idx v, dictionary !! N.to_nat idx = Some v) idxs vs.
Proof.
  revert result. induction idxs as [|i idxs IH]; intros result; simpl.
  - intros [= <-]. exists []. by rewrite app_nil_r.
  - case_decide as Hi; [done|]. unfold at_unchecked.
    destruct (dictionary !! N.to_nat i) as [v|] eqn:Hv; [|done]. simpl.
    intros (vs & -> & Hvs)%IH. exists (v :: vs).
    split; [by rewrite <- app_assoc | by constructor].
Qed.

End dict_decode.

(** ** Dictionary: the properties of the specification *)
Section dict_claims.
Context {T : Type} `{!EqDecision T}.
Implicit Types (data : list T) (c : Dict.DictionaryColumn T).

(** C2, as amended.  Dictionary round trip: for every sequence with at most
    2^32 distinct values (the empty sequence included), [decode] of the
    column that [encode] builds in a new object throws nothing and returns
    exactly that sequence. *)
Theorem dict_round_trip data :
  distinct_fit_uint32 data →
  Dict.decode (Dict.encode data Dict.new) = Returned data.
Proof.
  intros Hfit%distinct_fit_first_occurrences.
  rewrite encode_new. unfold Dict.decode. simpl.
  apply decode_loop_fmap. intros v Hv%elem_of_first_occurrences.
  unfold stored_index. pose proof (find_lt _ _ Hv).
  rewrite to_uint32_small by lia. rewrite Nat2N.id. by apply find_lookup.
Qed.

(** C3, as amended.  Corruption detection: for every column whose indices
    contain some entry greater than or equal to the dictionary length,
    [decode] throws [std::out_of_range]; the check is made at every lookup,
    and the exception carries the fixed text "Dictionary index out of
    range". *)
Theorem dict_decode_out_of_range c :
  (∃ idx, idx ∈ Dict.indices_ c
          ∧ N.of_nat (length (Dict.dictionary_ c)) ≤ idx) →
  Dict.decode c = Thrown (out_of_range "Dictionary index out of range").
Proof.
  unfold Dict.decode. generalize (@nil T).
  induction (Dict.indices_ c) as [|i idxs IH]; intros result (idx & Hin & Hbad).
  - by apply elem_of_nil in Hin.
  - simpl. case_decide as Hi; [done|].
    (* this index is a position of the dictionary: the loop goes on *)
    destruct (lookup_lt_is_Some_2 (Dict.dictionary_ c) (N.to_nat i)) as [v Hv];
      [lia|].
    unfold at_unchecked. rewrite Hv. simpl. apply IH.
    apply elem_of_cons in Hin as [->|Hin]; [lia|]. by exists idx.
Qed.

(** C4.  Dictionary contents: after [encode] into a new object the
    dictionary is the list of the distinct values of the sequence in the
    order of their first appearance: it has no duplicates, it holds exactly
    the values of the sequence, and of two of its entries the earlier one
    occurs in the sequence before the later one occurs at all. *)
Theorem dict_contents data :
  let dictionary := Dict.dictionary_ (Dict.encode data Dict.new) in
  dictionary = first_occurrences data
  ∧ NoDup dictionary
  ∧ (∀ x, x ∈ dictionary ↔ x ∈ data)
  ∧ (∀ i j x y,
       dictionary !! i = Some x → dictionary !! j = Some y → (i < j)%nat →
       ∃ k, data !! k = Some x ∧ ∀ k', (k' ≤ k)%nat → data !! k' ≠ Some y).
Proof.
  rewrite encode_new. simpl. repeat split.
  - apply NoDup_first_occurrences.
  - by apply elem_of_first_occurrences.
  - by apply elem_of_first_occurrences.
  - apply first_occurrences_order.
Qed.

(** C5.  Dictionary index validity: after [encode] into a new object there
    are as many indices as elements in the sequence, and every index is a
    position of the dictionary. *)
Theorem dict_indices_valid data :
  let col := Dict.encode data Dict.new in
  length (Dict.indices_ col) = length data
  ∧ Forall (λ idx, 0 ≤ idx < N.of_nat (length (Dict.dictionary_ col)))
           (Dict.indices_ col).
Proof.
  rewrite encode_new. simpl. split; [apply length_fmap|].
  apply Forall_fmap, Forall_forall. intros v Hv%elem_of_first_occurrences.
  simpl. unfold stored_index. pose proof (find_lt _ _ Hv).
  pose proof (to_uint32_le (N.of_nat (Dict.find (first_occurrences data) v))).
  lia.
Qed.

(** C8.  Empty input: [encode] of the empty sequence into a new object
    leaves an empty column: no values and no lengths for RLE, no dictionary
    entries and no indices for the dictionary column. *)
Theorem encode_empty :
  (RLE.values_ (RLE.encode (@nil T) RLE.new) = []
   ∧ RLE.lengths_ (RLE.encode (@nil T) RLE.new) = [])
  ∧ (Dict.dictionary_ (Dict.encode (@nil T) Dict.new) = []
     ∧ Dict.indices_ (Dict.encode (@nil T) Dict.new) = []).
Proof. repeat split. Qed.

(** C10.  Encoding the empty sequence into a column that holds data returns
    before anything is cleared: the stored sequences of the column are what
    they were before the call, for RLE and for the dictionary column. *)
Theorem encode_empty_keeps_state (r : RLE.RLEColumn T) c :
  RLE.encode [] r = r ∧ Dict.encode [] c = c.
Proof. unfold RLE.encode, Dict.encode. split; reflexivity. Qed.

(** Checked lookups: [decode] never reads outside the dictionary. *)
Lemma dict_decode_defined c : Dict.decode c ≠ Undefined.
Proof.
  unfold Dict.decode. generalize (@nil T).
  induction (Dict.indices_ c) as [|i idxs IH]; intros result; simpl; [done|].
  case_decide as Hi; [done|].
  destruct (lookup_lt_is_Some_2 (Dict.dictionary_ c) (N.to_nat i)) as [v Hv];
    [lia|].
  unfold at_unchecked. rewrite Hv. simpl. apply IH.
Qed.

End dict_claims.

(** ** Dictionary: more distinct values than 32-bit indices *)

Lemma NoDup_iota n : NoDup (iota n).
Proof. unfold iota. apply NoDup_fmap_2; [apply _ | apply NoDup_seq]. Qed.

Lemma lookup_iota n i : (i < n)%nat → iota n !! i = Some (N.of_nat i).
Proof.
  intros Hi. unfold iota. by rewrite list_lookup_fmap, lookup_seq_lt.
Qed.

(** The index stored for the value [i] of [iota n] is [i] modulo 2^32. *)
Lemma stored_index_iota n i :
  (i < n)%nat → stored_index (iota n) (N.of_nat i) = to_uint32 (N.of_nat i).
Proof.
  intros Hi. unfold stored_index.
  by rewrite (find_NoDup _ i) by auto using NoDup_iota, lookup_iota.
Qed.

(** Where [decode] returns after [encode] of [iota n], the value [i] has
    become the value at position [i] modulo 2^32. *)
Lemma decode_iota n i r :
  (i < n)%nat →
  Dict.decode (Dict.encode (iota n) Dict.new) = Returned r →
  r !! i = iota n !! N.to_nat (to_uint32 (N.of_nat i)).
Proof.
  intros Hi. rewrite encode_new, first_occurrences_NoDup by apply NoDup_iota.
  unfold Dict.decode. simpl. intros (vs & -> & Hvs)%decode_loop_returned.
  simpl. destruct (lookup_lt_is_Some_2 vs i) as [v Hv].
  { apply Forall2_length in Hvs. rewrite length_fmap in Hvs.
    unfold iota in Hvs. rewrite length_fmap, length_seq in Hvs. lia. }
  rewrite Hv. symmetry.
  rewrite <- (stored_index_iota n i) by done.
  apply (Forall2_lookup_lr _ _ _ i _ _ Hvs); [|done].
  by rewrite list_lookup_fmap, lookup_iota.
Qed.

(** C2 fails as stated.  Of 2^32 + 1 distinct values the last one takes
    position 2^32, which is stored as index 0: [decode] does not return the
    sequence that was encoded. *)
Lemma dict_round_trip_many_distinct :
  Dict.decode (Dict.encode many_distinct Dict.new) ≠ Returned many_distinct.
Proof.
  unfold many_distinct. intros Hdec.
  assert (N.to_nat (2 ^ 32) < N.to_nat (2 ^ 32 + 1))%nat as Hlt by lia.
  assert (0 < N.to_nat (2 ^ 32 + 1))%nat as Hpos by lia.
  apply (decode_iota _ _ _ Hlt) in Hdec.
  rewrite N2Nat.id in Hdec.
  change (N.to_nat (to_uint32 (2 ^ 32))) with 0%nat in Hdec.
  rewrite !lookup_iota, N2Nat.id in Hdec by done.
  discriminate Hdec.
Qed.

(** ** Dictionary: what the exception tells *)

(** C3 fails as stated.  The exception does not identify the offending
    index: no reading of the exception gives back the first index that is
    out of range, since the indices [0; 5] and [0; 6] over a dictionary of
    two entries throw the same exception. *)
Lemma dict_exception_hides_index :
  Dict.decode (Dict.mk [10; 20] [0; 5]) = Dict.decode (Dict.mk [10; 20] [0; 6])
  ∧ ¬ ∃ offending : exception → N,
        ∀ (c : Dict.DictionaryColumn N) (idx : N),
          first_offending c = Some idx →
          ∃ e, Dict.decode c = Thrown e ∧ offending e = idx.
Proof.
  split; [reflexivity|]. intros (offending & Hid).
  destruct (Hid (Dict.mk [10; 20] [0; 5]) 5) as (e5 & He5 & H5); [done|].
  destruct (Hid (Dict.mk [10; 20] [0; 6]) 6) as (e6 & He6 & H6); [done|].
  assert (e5 = e6) as Heq.
  { assert (Thrown (A := list N) e5 = Thrown e6) as [= ->]; [|done].
    by rewrite <- He5, <- He6. }
  rewrite Heq, H6 in H5. discriminate H5.
Qed.

(** ** Dictionary: instances *)

Lemma distinct_fit_uint32_short {T} (data : list T) :
  N.of_nat (length data) ≤ 2 ^ 32 → distinct_fit_uint32 data.
Proof.
  intros Hlen l Hnd Hsub.
  pose proof (submseteq_length _ _ (NoDup_submseteq _ _ Hnd Hsub)). lia.
Qed.

Lemma dict_round_trip_witness :
  distinct_fit_uint32 [3; 1; 3; 2; 1]
  ∧ Dict.decode (Dict.encode [3; 1; 3; 2; 1] Dict.new)
    = Returned [3; 1; 3; 2; 1].
Proof.
  assert (distinct_fit_uint32 [3; 1; 3; 2; 1]) as Hfit
    by (apply distinct_fit_uint32_short; simpl; lia).
  split; [exact Hfit | apply (dict_round_trip _ Hfit)].
Defined.

Lemma dict_decode_out_of_range_witness :
  (∃ idx, idx ∈ [0; 5] ∧ N.of_nat (length [10; 20]) ≤ idx)
  ∧ Dict.decode (Dict.mk [10; 20] [0; 5])
    = Thrown (out_of_range "Dictionary index out of range").
Proof.
  assert (∃ idx, idx ∈ [0; 5] ∧ N.of_nat (length [10; 20]) ≤ idx) as Hbad.
  { exists 5. split; [by repeat constructor | simpl; lia]. }
  split; [exact Hbad | apply (dict_decode_out_of_range (Dict.mk [10; 20] [0; 5]) Hbad)].
Defined.

(** ** RLE: [decode] and [decoded_size] on any column *)
Section rle_any_column.
Context {T : Type} `{!EqDecision T}.
Implicit Types (vs : list T) (ls : list N) (c : RLE.RLEColumn T).

(** The outer loop of [decode] over the first [k] runs, while both members
    have an entry at every index read. *)
Lemma decode_prefix_zip vs ls (k : nat) :
  (k ≤ length vs)%nat → (k ≤ length ls)%nat →
  foldl (RLE.decode_step (RLE.mk vs ls)) (Returned []) (seq 0 k)
  = Returned (expand (take k (column_runs (RLE.mk vs ls)))).
Proof.
  unfold column_runs. simpl.
  induction k as [|k IH]; intros Hvs Hls; [done|].
  rewrite seq_S, foldl_snoc, IH by lia. simpl.
  destruct (lookup_lt_is_Some_2 vs k) as [v Hv]; [lia|].
  destruct (lookup_lt_is_Some_2 ls k) as [len Hlen]; [lia|].
  unfold RLE.decode_step, at_unchecked. simpl. rewrite Hv, Hlen. simpl.
  rewrite push_back_n_replicate.
  rewrite (take_S_r _ _ (v, N.to_nat len)), expand_snoc; [done|].
  by rewrite lookup_zip_with, Hv, Hlen.
Qed.

(** Once a read has gone outside a member, no later iteration recovers. *)
Lemma decode_step_undefined c (l : list nat) :
  foldl (RLE.decode_step c) Undefined l = Undefined.
Proof. induction l as [|i l IH]; [done|]. simpl. apply IH. Qed.

(** X9.  [decode] on any column.  It has no [throw] of its own.  It reads
    [lengths_[i]] for every index of [values_]: with fewer lengths than
    values the read is outside the vector, and otherwise the result repeats
    the [i]-th value [lengths_[i]] times, in order; lengths beyond the
    values are not read. *)
Theorem rle_decode_any c :
  RLE.decode c
  = if decide (length (RLE.lengths_ c) < length (RLE.values_ c))%nat
    then Undefined
    else Returned (expand (column_runs c)).
Proof.
  destruct c as [vs ls]. unfold RLE.decode. simpl. case_decide as Hlen.
  - replace (length vs) with (length ls + S (length vs - S (length ls)))%nat
      by lia.
    rewrite seq_app, foldl_app, decode_prefix_zip by lia. simpl.
    unfold at_unchecked at 1. rewrite (lookup_ge_None_2 ls) by done. simpl.
    apply decode_step_undefined.
  - rewrite decode_prefix_zip by lia. rewrite take_ge; [done|].
    unfold column_runs. rewrite length_zip_with. simpl. lia.
Qed.

(** X20.  On a column with as many lengths as values, whose decoded size
    fits [size_t], [decoded_size] is the number of elements that [decode]
    returns. *)
Theorem rle_decoded_size_decode c r :
  length (RLE.values_ c) = length (RLE.lengths_ c) →
  RLE.decode c = Returned r →
  N.of_nat (length r) < 2 ^ 64 →
  RLE.decoded_size c = N.of_nat (length r).
Proof.
  destruct c as [vs ls]. simpl. intros Hlen Hdec Hfit.
  unfold RLE.decode in Hdec. simpl in Hdec.
  rewrite decode_prefix_zip in Hdec by lia. injection Hdec as <-.
  rewrite take_ge in Hfit |- * by (unfold column_runs; rewrite length_zip_with; simpl; lia).
  unfold RLE.decoded_size. simpl.
  assert (ls = (λ r, N.of_nat r.2) <$> column_runs (RLE.mk vs ls)) as Hls.
  { unfold column_runs. simpl. clear Hfit. revert ls Hlen.
    induction vs as [|v vs IH]; intros [|len ls] [=]; simpl; [done|].
    rewrite N2Nat.id. f_equal. by apply IH. }
  rewrite Hls at 1. change 0 with (to_size_t 0) at 1.
  rewrite decoded_size_from, N.add_0_l. by apply N.mod_small.
Qed.

End rle_any_column.

(** ** RLE: the column of a sequence given by its runs *)
Section rle_of_runs.
Context {T : Type} `{!EqDecision T}.
Implicit Types (data : list T) (rs : list (T * nat)) (c : RLE.RLEColumn T).

Lemma adjacent_distinct_tail (x : T) l :
  adjacent_distinct (x :: l) → adjacent_distinct l.
Proof. intros Hl i a b Ha Hb. by apply (Hl (S i) a b). Qed.

Lemma elem_of_expand rs x :
  x ∈ expand rs ↔ ∃ n, (x, n) ∈ rs ∧ n ≠ 0%nat.
Proof.
  induction rs as [|[v n] rs IH]; simpl.
  - split; [by intros ?%elem_of_nil | by intros (n & ?%elem_of_nil & _)].
  - rewrite elem_of_app, elem_of_replicate, IH. split.
    + intros [[-> Hn]|(m & Hm & Hm')].
      * exists n. split; [left | done].
      * exists m. split; [by right | done].
    + intros (m & [[= -> ->]|Hm]%elem_of_cons & Hm'); [by left|].
      right. by exists m.
Qed.

Lemma length_expand_positive rs :
  Forall (λ r, (0 < r.2)%nat) rs → (length rs ≤ length (expand rs))%nat.
Proof.
  induction 1 as [|r rs Hr _ IH]; simpl; [done|].
  rewrite length_app, length_replicate. lia.
Qed.

(** The scan over a sequence given by its runs, each run non-empty and of
    another value than the run before: it closes the open run and then
    every run but the last, which it leaves open. *)
Lemma encode_scan_expand rs c (x : T) (m : N) :
  Forall (λ r, (0 < r.2)%nat) rs →
  adjacent_distinct (x :: rs.*1) →
  let s := foldl RLE.encode_step (RLE.Scan c x (to_uint32 m)) (expand rs) in
  RLE.push_run (RLE.self_ s) (RLE.current_value s) (RLE.current_length s)
  = RLE.mk (RLE.values_ c ++ x :: rs.*1)
           (RLE.lengths_ c ++ to_uint32 m :: (stored_length <$> rs)).
Proof.
  intros Hpos. revert c x m.
  induction Hpos as [|[v n] rs Hn _ IH]; intros c x m Hadj; [done|].
  simpl in Hn. destruct n as [|n]; [lia|].
  assert (v ≠ x) as Hvx by (by intros ->; apply (Hadj 0%nat x x)).
  cbv zeta. cbn [expand fst snd replicate]. rewrite <- app_comm_cons.
  cbn [foldl]. rewrite foldl_app.
  replace (RLE.encode_step (RLE.Scan c x (to_uint32 m)) v)
    with (RLE.Scan (RLE.push_run c x (to_uint32 m)) v 1)
    by (unfold RLE.encode_step; simpl; by rewrite decide_False).
  change (RLE.Scan (RLE.push_run c x (to_uint32 m)) v 1)
    with (RLE.Scan (RLE.push_run c x (to_uint32 m)) v (to_uint32 1)).
  rewrite encode_step_replicate.
  rewrite (IH _ v (1 + N.of_nat n)) by (by eapply adjacent_distinct_tail).
  unfold RLE.push_run, stored_length. simpl. rewrite <- !app_assoc. simpl.
  by replace (1 + N.of_nat n) with (N.of_nat (S n)) by lia.
Qed.

(** There is one way only to store a sequence: given as non-empty runs, each
    of another value than the run before, it is encoded as these runs, every
    length reduced modulo 2^32. *)
Lemma encode_expand rs :
  Forall (λ r, (0 < r.2)%nat) rs →
  adjacent_distinct rs.*1 →
  RLE.encode (expand rs) RLE.new = RLE.mk rs.*1 (stored_length <$> rs).
Proof.
  destruct rs as [|[v n] rs]; [done|].
  intros [Hn Hpos]%Forall_cons_1 Hadj. simpl in Hn.
  destruct n as [|n]; [lia|].
  cbn [expand fst snd replicate]. rewrite <- app_comm_cons.
  unfold RLE.encode. rewrite foldl_app.
  change (RLE.Scan RLE.new v 1) with (RLE.Scan RLE.new v (to_uint32 1)).
  rewrite encode_step_replicate, encode_scan_expand by done.
  unfold stored_length. simpl.
  by replace (1 + N.of_nat n) with (N.of_nat (S n)) by lia.
Qed.

End rle_of_runs.

(** ** RLE: further properties of the codec *)
Section rle_more.
Context {T : Type} `{!EqDecision T}.
Implicit Types (data : list T) (rs : list (T * nat)) (c : RLE.RLEColumn T).

(** The runs as [decode] reads them back from the stored lengths. *)
Lemma stored_runs_fit rs :
  Forall (λ r, N.of_nat r.2 < 2 ^ 32) rs →
  (λ r, (r.1, N.to_nat (stored_length r))) <$> rs = rs.
Proof.
  intros Hfit. rewrite <- (list_fmap_id rs) at 2. apply Forall_fmap_ext.
  eapply Forall_impl; [done|]. intros [v n] Hn. unfold stored_length.
  simpl in *. rewrite to_uint32_small by done. by rewrite Nat2N.id.
Qed.

(** X1.  [encode] keeps the two members of the column in step: where they
    had one length before the call, they have one length after it. *)
Theorem rle_members_same_length data c :
  length (RLE.values_ c) = length (RLE.lengths_ c) →
  length (RLE.values_ (RLE.encode data c))
  = length (RLE.lengths_ (RLE.encode data c)).
Proof.
  intros Hc. destruct (decide (data = [])) as [->|Hne]; [done|].
  rewrite encode_nonempty_clears by done.
  destruct (encode_runs data) as (rs & _ & -> & _ & _). simpl.
  by rewrite !length_fmap.
Qed.

(** X2.  [encode] stores no more runs than the buffer has elements. *)
Theorem rle_runs_bounded data :
  (length (RLE.values_ (RLE.encode data RLE.new)) ≤ length data)%nat.
Proof.
  destruct (encode_runs data) as (rs & -> & -> & Hpos & _). simpl.
  rewrite length_fmap. by apply length_expand_positive.
Qed.

(** X3.  The values stored by [encode] are exactly the values that occur in
    the buffer. *)
Theorem rle_values_of_data data x :
  x ∈ RLE.values_ (RLE.encode data RLE.new) ↔ x ∈ data.
Proof.
  destruct (encode_runs data) as (rs & -> & -> & Hpos & _). simpl.
  rewrite elem_of_expand, list_elem_of_fmap. split.
  - intros ([v n] & -> & Hr). exists n. split; [done|].
    rewrite Forall_forall in Hpos. apply Hpos in Hr. simpl in Hr. lia.
  - intros (n & Hr & _). by exists (x, n).
Qed.

(** X4.  A buffer in which no two neighbours are equal is stored value by
    value, every run of length 1. *)
Theorem rle_encode_no_repeats data :
  adjacent_distinct data →
  RLE.encode data RLE.new = RLE.mk data (replicate (length data) 1).
Proof.
  intros Hadj. set (rs := (λ x, (x, 1%nat)) <$> data).
  assert (rs.*1 = data) as Hfst.
  { unfold rs. rewrite <- list_fmap_compose. apply list_fmap_id. }
  assert (expand rs = data) as Hexp.
  { unfold rs. clear.
    induction data as [|x data IH]; simpl; [done|]. f_equal. exact IH. }
  assert (stored_length <$> rs = replicate (length data) 1) as Hlen.
  { unfold rs. rewrite <- list_fmap_compose. clear.
    induction data as [|x data IH]; simpl; [done|]. f_equal. exact IH. }
  rewrite <- Hexp at 1. rewrite encode_expand, Hfst, Hlen; [done| |].
  - unfold rs. apply Forall_fmap, Forall_forall. intros x _. simpl. lia.
  - by rewrite Hfst.
Qed.

(** X5.  A buffer that repeats one value [n >= 1] times is stored as one run
    of length [n] modulo 2^32, whatever the column held, and is decoded as
    that many copies of the value. *)
Theorem rle_encode_constant (x : T) (n : nat) c :
  RLE.encode (replicate (S n) x) c = RLE.mk [x] [to_uint32 (N.of_nat (S n))]
  ∧ RLE.decode (RLE.encode (replicate (S n) x) c)
    = Returned (replicate (N.to_nat (to_uint32 (N.of_nat (S n)))) x).
Proof.
  rewrite encode_nonempty_clears by done. rewrite encode_replicate.
  split; [done|].
  change (RLE.mk [x] [to_uint32 (N.of_nat (S n))])
    with (RLE.mk [(x, S n)].*1 (stored_length <$> [(x, S n)])).
  rewrite decode_runs. cbn [fmap list_fmap expand fst snd].
  by rewrite app_nil_r.
Qed.

(** X6.  Back from the column to the buffer and to the column again: a
    column with as many lengths as values, no two neighbouring values
    equal, and every length between 1 and 2^32 - 1, is what [encode] builds
    from the sequence that [decode] returns for it. *)
Theorem rle_encode_decode c :
  length (RLE.values_ c) = length (RLE.lengths_ c) →
  adjacent_distinct (RLE.values_ c) →
  Forall (λ len, 1 ≤ len < 2 ^ 32) (RLE.lengths_ c) →
  ∃ data, RLE.decode c = Returned data ∧ RLE.encode data RLE.new = c.
Proof.
  destruct c as [vs ls]. simpl. intros Hlen Hadj Hls.
  exists (expand (column_runs (RLE.mk vs ls))). split.
  - unfold RLE.decode. simpl. rewrite decode_prefix_zip by lia.
    rewrite take_ge; [done|].
    unfold column_runs. rewrite length_zip_with. simpl. lia.
  - assert ((column_runs (RLE.mk vs ls)).*1 = vs
            ∧ stored_length <$> column_runs (RLE.mk vs ls) = ls
            ∧ Forall (λ r, (0 < r.2)%nat) (column_runs (RLE.mk vs ls)))
      as (Hfst & Hsnd & Hpos).
    { unfold column_runs. cbn [RLE.values_ RLE.lengths_].
      clear Hadj. revert ls Hlen Hls.
      induction vs as [|v vs IH]; intros [|len ls] [=] Hls; [done|].
      apply Forall_cons_1 in Hls as [Hl Hls].
      destruct (IH ls) as (IH1 & IH2 & IH3); [done..|].
      cbn [zip_with]. rewrite !fmap_cons, IH1, IH2.
      unfold stored_length at 1. cbn [fst snd].
      rewrite N2Nat.id, to_uint32_small by lia.
      repeat split. constructor; [cbn [snd]; lia | done]. }
    rewrite encode_expand by (by rewrite ?Hfst). by rewrite Hfst, Hsnd.
Qed.

(** X7.  Whatever the buffer, [decode] after [encode] returns: it reads
    inside both members, gives no more elements than the buffer had, and
    gives values of the buffer only. *)
Theorem rle_decode_encode_returns data :
  ∃ r, RLE.decode (RLE.encode data RLE.new) = Returned r
       ∧ (length r ≤ length data)%nat
       ∧ ∀ x, x ∈ r → x ∈ data.
Proof.
  destruct (encode_runs data) as (rs & -> & -> & _ & _).
  rewrite decode_runs. eexists. split; [done|]. split.
  - induction rs as [|[v n] rs IH]; simpl; [done|].
    rewrite !length_app, !length_replicate. unfold stored_length. simpl.
    pose proof (to_uint32_le (N.of_nat n)).
    apply Nat.add_le_mono; [lia | exact IH].
  - intros x (m & Hin & Hm)%elem_of_expand.
    apply list_elem_of_fmap in Hin as ([v n] & [= -> ->] & Hr).
    apply elem_of_expand. exists n. split; [done|].
    intros ->. by apply Hm.
Qed.

(** X8.  A column that is encoded twice decodes to the second buffer, except
    that an empty second buffer leaves the first one in place (both with
    runs that fit 32 bits). *)
Theorem rle_reencode data data' :
  runs_fit_uint32 data → runs_fit_uint32 data' →
  RLE.decode (RLE.encode data' (RLE.encode data RLE.new))
  = Returned (match data' with [] => data | _ :: _ => data' end).
Proof.
  intros Hfit Hfit'.
  destruct data' as [|d data'].
  - change (RLE.encode [] (RLE.encode data RLE.new))
      with (RLE.encode data RLE.new).
    destruct (encode_runs data) as (rs & -> & -> & _ & _).
    rewrite decode_runs, stored_runs_fit; [done|].
    exact (runs_fit_expand _ Hfit).
  - rewrite encode_nonempty_clears by done.
    destruct (encode_runs (d :: data')) as (rs & Hrs & -> & _ & _).
    rewrite Hrs in Hfit' |- *.
    rewrite decode_runs, stored_runs_fit; [done|].
    exact (runs_fit_expand _ Hfit').
Qed.

End rle_more.

(** ** Dictionary: [decode] on any column *)
Section dict_any_column.
Context {T : Type} `{!EqDecision T}.
Implicit Types (dictionary result : list T) (idxs : list N)
  (c : Dict.DictionaryColumn T).

(** X10.  [decode] on any column.  It looks every index up in the
    dictionary, in order: where all of them are positions of the
    dictionary it returns the values found, and where one is not it throws
    [std::out_of_range]; it never reads outside the dictionary. *)
Theorem dict_decode_any c :
  Dict.decode c
  = match mapM (λ idx, Dict.dictionary_ c !! N.to_nat idx) (Dict.indices_ c)
    with
    | Some r => Returned r
    | None => Thrown (out_of_range "Dictionary index out of range")
    end.
Proof.
  unfold Dict.decode.
  enough (∀ result,
    Dict.decode_loop (Dict.dictionary_ c) (Dict.indices_ c) result
    = match mapM (λ idx, Dict.dictionary_ c !! N.to_nat idx) (Dict.indices_ c)
      with
      | Some r => Returned (result ++ r)
      | None => Thrown (out_of_range "Dictionary index out of range")
      end) as Hloop by apply (Hloop []).
  induction (Dict.indices_ c) as [|idx idxs IH]; intros result.
  - simpl. by rewrite app_nil_r.
  - cbn [Dict.decode_loop mapM]. case_decide as Hidx.
    + by rewrite (lookup_ge_None_2 _ (N.to_nat idx)) by lia.
    + destruct (lookup_lt_is_Some_2 (Dict.dictionary_ c) (N.to_nat idx))
        as [v Hv]; [lia|].
      unfold at_unchecked. rewrite Hv. simpl. rewrite IH.
      destruct (mapM _ idxs) as [r|]; simpl; [|done].
      by rewrite <- app_assoc.
Qed.

(** X11.  When [decode] returns, it returns [size()] elements, each one an
    entry of the dictionary. *)
Theorem dict_decode_size c r :
  Dict.decode c = Returned r →
  N.of_nat (length r) = Dict.size c ∧ ∀ x, x ∈ r → x ∈ Dict.dictionary_ c.
Proof.
  unfold Dict.decode, Dict.size.
  intros (vs & -> & Hvs)%decode_loop_returned. simpl. split.
  - by rewrite (Forall2_length _ _ _ Hvs).
  - intros x (i & Hi)%list_elem_of_lookup_1.
    destruct (Forall2_lookup_r _ _ _ _ _ Hvs Hi) as (idx & _ & Hx).
    by eapply list_elem_of_lookup_2.
Qed.

End dict_any_column.

(** ** Dictionary: further properties of the codec *)
Section dict_more.
Context {T : Type} `{!EqDecision T}.
Implicit Types (data : list T) (c : Dict.DictionaryColumn T).

Lemma length_first_occurrences data :
  (length (first_occurrences data) ≤ length data)%nat.
Proof.
  apply submseteq_length, NoDup_submseteq; [apply NoDup_first_occurrences|].
  intros x. by rewrite elem_of_first_occurrences.
Qed.

Lemma first_occurrences_app data data' :
  first_occurrences data `prefix_of` first_occurrences (data ++ data').
Proof.
  induction data' as [|v data' IH] using rev_ind.
  - by rewrite app_nil_r.
  - rewrite app_assoc, first_occurrences_snoc. case_decide; [done|].
    by apply prefix_app_r.
Qed.

(** The position of a value of the buffer, once found, stays what it is. *)
Lemma stored_index_app data data' v :
  v ∈ data →
  stored_index (first_occurrences (data ++ data')) v
  = stored_index (first_occurrences data) v.
Proof.
  intros Hv. destruct (first_occurrences_app data data') as [w ->].
  unfold stored_index. rewrite find_app_l; [done|].
  by apply elem_of_first_occurrences.
Qed.

(** The loop of [decode] over the indices stored for a buffer whose distinct
    values have positions that fit 32 bits. *)
Lemma decode_stored_fit data :
  N.of_nat (length (first_occurrences data)) ≤ 2 ^ 32 →
  Dict.decode_loop (first_occurrences data)
    (stored_index (first_occurrences data) <$> data) []
  = Returned data.
Proof.
  intros Hfit. apply decode_loop_fmap.
  intros v Hv%elem_of_first_occurrences.
  unfold stored_index. pose proof (find_lt _ _ Hv).
  rewrite to_uint32_small by lia. rewrite Nat2N.id. by apply find_lookup.
Qed.

(** X12.  The dictionary has no more entries than the buffer has elements. *)
Theorem dict_dictionary_bounded data :
  (length (Dict.dictionary_ (Dict.encode data Dict.new)) ≤ length data)%nat.
Proof. rewrite encode_new. simpl. apply length_first_occurrences. Qed.

(** X13.  The index stored for an element is the position of its value in
    the dictionary, reduced modulo 2^32. *)
Theorem dict_index_of_value data (i : nat) v :
  data !! i = Some v →
  ∃ p, Dict.dictionary_ (Dict.encode data Dict.new) !! p = Some v
       ∧ Dict.indices_ (Dict.encode data Dict.new) !! i
         = Some (to_uint32 (N.of_nat p)).
Proof.
  intros Hi. rewrite encode_new. simpl.
  exists (Dict.find (first_occurrences data) v). split.
  - apply find_lookup, elem_of_first_occurrences.
    by eapply list_elem_of_lookup_2.
  - by rewrite list_lookup_fmap, Hi.
Qed.

(** X14.  With at most 2^32 distinct values, two elements of the buffer have
    the same index exactly when they have the same value. *)
Theorem dict_same_index_same_value data (i j : nat) v w idx idx' :
  distinct_fit_uint32 data →
  data !! i = Some v → data !! j = Some w →
  Dict.indices_ (Dict.encode data Dict.new) !! i = Some idx →
  Dict.indices_ (Dict.encode data Dict.new) !! j = Some idx' →
  idx = idx' ↔ v = w.
Proof.
  intros Hfit%distinct_fit_first_occurrences Hi Hj.
  rewrite encode_new. simpl. rewrite !list_lookup_fmap, Hi, Hj. simpl.
  intros [= <-] [= <-]. split; [|by intros ->].
  apply list_elem_of_lookup_2, elem_of_first_occurrences in Hi, Hj.
  pose proof (find_lt _ _ Hi). pose proof (find_lt _ _ Hj).
  unfold stored_index. rewrite !to_uint32_small by lia.
  intros Hfind%(inj N.of_nat).
  apply find_lookup in Hi, Hj. rewrite Hfind in Hi. congruence.
Qed.

(** X15.  A buffer of distinct values is its own dictionary, and the indices
    count up from 0 (modulo 2^32). *)
Theorem dict_encode_distinct data :
  NoDup data →
  Dict.encode data Dict.new
  = Dict.mk data ((λ i, to_uint32 (N.of_nat i)) <$> seq 0 (length data)).
Proof.
  intros Hnd. rewrite encode_new, first_occurrences_NoDup by done.
  f_equal. apply list_eq. intros i. rewrite !list_lookup_fmap.
  destruct (data !! i) as [v|] eqn:Hi; simpl.
  - rewrite lookup_seq_lt by (by eapply lookup_lt_Some). simpl.
    unfold stored_index. by rewrite (find_NoDup data i v).
  - apply lookup_ge_None_1 in Hi. rewrite lookup_ge_None_2; [done|].
    by rewrite length_seq.
Qed.

(** X16.  A buffer that repeats one value [n >= 1] times has that value as
    its dictionary and index 0 throughout, whatever the column held. *)
Theorem dict_encode_constant (x : T) (n : nat) c :
  Dict.encode (replicate (S n) x) c = Dict.mk [x] (replicate (S n) 0).
Proof.
  rewrite dict_encode_nonempty_clears by done. rewrite encode_new.
  assert (first_occurrences (replicate (S n) x) = [x]) as ->.
  { cbn [replicate first_occurrences]. f_equal.
    induction n as [|n IH]; [done|].
    cbn [replicate first_occurrences].
    rewrite filter_cons_False by (intros Hx; by apply Hx).
    by rewrite IH. }
  rewrite fmap_replicate. unfold stored_index. simpl.
  by rewrite decide_True.
Qed.

(** X17.  Encoding a longer buffer extends the column of the shorter one:
    the dictionary and the indices of [data] are the beginning of the
    dictionary and the indices of [data ++ data']. *)
Theorem dict_encode_app data data' :
  Dict.dictionary_ (Dict.encode data Dict.new)
    `prefix_of` Dict.dictionary_ (Dict.encode (data ++ data') Dict.new)
  ∧ Dict.indices_ (Dict.encode data Dict.new)
    `prefix_of` Dict.indices_ (Dict.encode (data ++ data') Dict.new).
Proof.
  rewrite !encode_new. simpl. split; [apply first_occurrences_app|].
  rewrite fmap_app.
  exists (stored_index (first_occurrences (data ++ data')) <$> data').
  f_equal. apply list_fmap_ext. intros i v Hv.
  apply stored_index_app. by eapply list_elem_of_lookup_2.
Qed.

(** X18.  Whatever the buffer, [decode] after [encode] returns: no stored
    index is outside the dictionary, there is one element for each element
    of the buffer, and each is a value of the buffer. *)
Theorem dict_decode_encode_returns data :
  ∃ r, Dict.decode (Dict.encode data Dict.new) = Returned r
       ∧ length r = length data
       ∧ ∀ x, x ∈ r → x ∈ data.
Proof.
  rewrite encode_new. unfold Dict.decode. simpl.
  enough (∀ l result, (∀ v, v ∈ l → v ∈ data) →
    ∃ vs, Dict.decode_loop (first_occurrences data)
            (stored_index (first_occurrences data) <$> l) result
          = Returned (result ++ vs)
          ∧ length vs = length l ∧ ∀ x, x ∈ vs → x ∈ data) as Hloop.
  { destruct (Hloop data []) as (vs & -> & ? & ?); [done|]. by exists vs. }
  induction l as [|v l IH]; intros result Hl.
  - exists []. rewrite app_nil_r. split; [done|]. split; [done|].
    by intros x ?%elem_of_nil.
  - assert (v ∈ first_occurrences data) as Hv.
    { apply elem_of_first_occurrences, Hl. left. }
    assert (stored_index (first_occurrences data) v
            < N.of_nat (length (first_occurrences data))) as Hidx.
    { pose proof (find_lt _ _ Hv). unfold stored_index.
      pose proof
        (to_uint32_le (N.of_nat (Dict.find (first_occurrences data) v))).
      lia. }
    rewrite fmap_cons. cbn [Dict.decode_loop]. rewrite decide_False by lia.
    destruct (lookup_lt_is_Some_2 (first_occurrences data)
                (N.to_nat (stored_index (first_occurrences data) v)))
      as [y Hy]; [lia|].
    unfold at_unchecked. rewrite Hy. simpl.
    destruct (IH (result ++ [y])) as (vs & -> & Hlen & Hvs).
    { intros x Hx. apply Hl. by right. }
    exists (y :: vs). rewrite <- app_assoc. split; [done|].
    split; [simpl; by rewrite Hlen|].
    intros x [->|Hx]%elem_of_cons; [|by apply Hvs].
    by eapply elem_of_first_occurrences, list_elem_of_lookup_2.
Qed.

(** X19.  A column that is encoded twice decodes to the second buffer,
    except that an empty second buffer leaves the first one in place (both
    with at most 2^32 distinct values). *)
Theorem dict_reencode data data' :
  distinct_fit_uint32 data → distinct_fit_uint32 data' →
  Dict.decode (Dict.encode data' (Dict.encode data Dict.new))
  = Returned (match data' with [] => data | _ :: _ => data' end).
Proof.
  intros Hfit%distinct_fit_first_occurrences
         Hfit'%distinct_fit_first_occurrences.
  destruct data' as [|d data'].
  - change (Dict.encode [] (Dict.encode data Dict.new))
      with (Dict.encode data Dict.new).
    rewrite encode_new. by apply decode_stored_fit.
  - rewrite dict_encode_nonempty_clears, encode_new by done.
    by apply decode_stored_fit.
Qed.

End dict_more.

(** ** Dictionary: from the column back to the column *)
Section dict_canonical.
Context {T : Type} `{!EqDecision T}.
Implicit Types (data : list T) (c : Dict.DictionaryColumn T).

(** X21.  Back from the column to the buffer and to the column again: a
    column of 32-bit indices whose dictionary lists the decoded values in
    the order of their first use is what [encode] builds from the sequence
    that [decode] returns for it. *)
Theorem dict_encode_decode c data :
  Forall (λ idx, idx < 2 ^ 32) (Dict.indices_ c) →
  Dict.decode c = Returned data →
  first_occurrences data = Dict.dictionary_ c →
  Dict.encode data Dict.new = c.
Proof.
  destruct c as [dictionary idxs]. unfold Dict.decode. simpl.
  intros Hidx (vs & -> & Hvs)%decode_loop_returned Hdict. simpl in *.
  rewrite encode_new, Hdict. f_equal.
  assert (NoDup dictionary) as Hnd.
  { rewrite <- Hdict. apply NoDup_first_occurrences. }
  clear Hdict. induction Hvs as [|idx v idxs vs Hv _ IH]; [done|].
  apply Forall_cons_1 in Hidx as [Hidx Hidxs].
  rewrite fmap_cons, IH by done. f_equal.
  unfold stored_index. rewrite (find_NoDup _ _ _ Hnd Hv), N2Nat.id.
  by apply to_uint32_small.
Qed.

End dict_canonical.

(** ** Instances of the further properties *)

Lemma adjacent_distinct_cons {T} (x y : T) l :
  x ≠ y → adjacent_distinct (y :: l) → adjacent_distinct (x :: y :: l).
Proof.
  intros Hxy Hl [|i] a b Ha Hb; simpl in *; [congruence|]. by eapply Hl.
Qed.

Lemma adjacent_distinct_5_2_9 : adjacent_distinct [5; 2; 9].
Proof.
  repeat (apply adjacent_distinct_cons; [discriminate|]).
  apply adjacent_distinct_singleton.
Qed.

Lemma rle_decoded_size_decode_witness :
  RLE.decode (RLE.mk [5; 2; 9] [3; 2; 1]) = Returned [5; 5; 5; 2; 2; 9]
  ∧ RLE.decoded_size (RLE.mk [5; 2; 9] [3; 2; 1]) = 6.
Proof.
  split; [reflexivity|].
  apply (rle_decoded_size_decode (RLE.mk [5; 2; 9] [3; 2; 1])
           [5; 5; 5; 2; 2; 9]); [reflexivity | reflexivity | simpl; lia].
Defined.

Lemma rle_members_same_length_witness :
  length (RLE.values_ (RLE.encode [5; 5; 2] (RLE.mk [7] [1])))
  = length (RLE.lengths_ (RLE.encode [5; 5; 2] (RLE.mk [7] [1]))).
Proof. apply rle_members_same_length. reflexivity. Defined.

Lemma rle_encode_no_repeats_witness :
  adjacent_distinct [5; 2; 9]
  ∧ RLE.encode [5; 2; 9] RLE.new = RLE.mk [5; 2; 9] [1; 1; 1].
Proof.
  split; [apply adjacent_distinct_5_2_9|].
  apply (rle_encode_no_repeats [5; 2; 9]), adjacent_distinct_5_2_9.
Defined.

Lemma rle_encode_decode_witness :
  ∃ data, RLE.decode (RLE.mk [5; 2; 9] [3; 2; 1]) = Returned data
          ∧ RLE.encode data RLE.new = RLE.mk [5; 2; 9] [3; 2; 1].
Proof.
  apply (rle_encode_decode (RLE.mk [5; 2; 9] [3; 2; 1]));
    [reflexivity | apply adjacent_distinct_5_2_9 |].
  repeat (constructor; [lia|]). constructor.
Defined.

Lemma rle_reencode_witness :
  runs_fit_uint32 [5; 5; 2]
  ∧ RLE.decode (RLE.encode [] (RLE.encode [5; 5; 2] RLE.new))
    = Returned [5; 5; 2].
Proof.
  assert (runs_fit_uint32 [5; 5; 2]) as Hfit
    by (apply runs_fit_uint32_short; simpl; lia).
  assert (runs_fit_uint32 (@nil N)) as Hnil
    by (apply runs_fit_uint32_short; simpl; lia).
  split; [exact Hfit | apply (rle_reencode [5; 5; 2] [] Hfit Hnil)].
Defined.

Lemma dict_decode_size_witness :
  Dict.decode (Dict.mk [10; 20] [0; 1; 0]) = Returned [10; 20; 10]
  ∧ N.of_nat (length [10; 20; 10]) = Dict.size (Dict.mk [10; 20] [0; 1; 0]).
Proof.
  split; [reflexivity|].
  apply (dict_decode_size (Dict.mk [10; 20] [0; 1; 0]) [10; 20; 10]).
  reflexivity.
Defined.

Lemma dict_index_of_value_witness :
  ∃ p, Dict.dictionary_ (Dict.encode [3; 1; 3] Dict.new) !! p = Some 3
       ∧ Dict.indices_ (Dict.encode [3; 1; 3] Dict.new) !! 2%nat
         = Some (to_uint32 (N.of_nat p)).
Proof. apply (dict_index_of_value [3; 1; 3] 2 3). reflexivity. Defined.

Lemma dict_same_index_same_value_witness :
  distinct_fit_uint32 [3; 1; 3] ∧ ((0 : N) = 0 ↔ (3 : N) = 3).
Proof.
  assert (distinct_fit_uint32 [3; 1; 3]) as Hfit
    by (apply distinct_fit_uint32_short; simpl; lia).
  split; [exact Hfit|].
  apply (dict_same_index_same_value [3; 1; 3] 0 2 3 3 0 0 Hfit);
    reflexivity.
Defined.

Lemma dict_encode_distinct_witness :
  NoDup [3; 1; 2]
  ∧ Dict.encode [3; 1; 2] Dict.new = Dict.mk [3; 1; 2] [0; 1; 2].
Proof.
  assert (NoDup [3; 1; 2]) as Hnd
    by (apply (@bool_decide_unpack (NoDup [3; 1; 2]) _); vm_compute; exact I).
  split; [exact Hnd | apply (dict_encode_distinct [3; 1; 2] Hnd)].
Defined.

Lemma dict_reencode_witness :
  distinct_fit_uint32 [3; 1; 3]
  ∧ Dict.decode (Dict.encode [] (Dict.encode [3; 1; 3] Dict.new))
    = Returned [3; 1; 3].
Proof.
  assert (distinct_fit_uint32 [3; 1; 3]) as Hfit
    by (apply distinct_fit_uint32_short; simpl; lia).
  assert (distinct_fit_uint32 (@nil N)) as Hnil
    by (apply distinct_fit_uint32_short; simpl; lia).
  split; [exact Hfit | apply (dict_reencode [3; 1; 3] [] Hfit Hnil)].
Defined.

Lemma dict_encode_decode_witness :
  Dict.decode (Dict.mk [3; 1; 2] [0; 1; 0; 2; 1]) = Returned [3; 1; 3; 2; 1]
  ∧ Dict.encode [3; 1; 3; 2; 1] Dict.new = Dict.mk [3; 1; 2] [0; 1; 0; 2; 1].
Proof.
  split; [reflexivity|].
  apply (dict_encode_decode (Dict.mk [3; 1; 2] [0; 1; 0; 2; 1]));
    [|reflexivity|reflexivity].
  repeat (constructor; [simpl; lia|]). constructor.
Defined.
